(** * sgkit.utils: array contract checks, stable encoding, chunk sizes

    A shallow embedding of [src/sgkit/utils.py] and the proofs of its
    specification.  Python exceptions are values of an error monad, Python
    [int]s are [Z], sequences and one-dimensional arrays are lists, Python
    sets are [gset]s, and the NumPy routines the module calls are modelled
    from their documented behaviour. *)

From Stdlib Require Import Ascii.
From stdpp Require Import base tactics option list sorting strings pretty gmap.

Local Open Scope Z_scope.

(** ** Python exceptions *)

Inductive exn_kind : Set := TypeError | ValueError | AttributeError | IndexError.

Global Instance exn_kind_eq_dec : EqDecision exn_kind.
Proof. solve_decision. Defined.

(** An exception is its class and its message. *)
Record exn : Set := Exn { exn_class : exn_kind; exn_msg : string }.

Global Instance exn_eq_dec : EqDecision exn.
Proof. solve_decision. Defined.

(** The outcome of a call: a returned value or a raised exception. *)
Inductive result (A : Type) : Type :=
| Ok (a : A)
| Raise (e : exn).
Global Arguments Ok {A} a.
Global Arguments Raise {A} e.

Definition raise {A} (k : exn_kind) (msg : string) : result A := Raise (Exn k msg).

Definition rbind {A B} (m : result A) (f : A → result B) : result B :=
  match m with
  | Ok a => f a
  | Raise e => Raise e
  end.

Notation "x ←! m ; k" := (rbind m (λ x, k))
  (at level 20, m at level 100, k at level 200, right associativity,
   format "'[' x  ←!  m ; '/' k ']'").
Notation "m ;;! k" := (rbind m (λ _, k))
  (at level 100, k at level 200, right associativity).

Definition raises_kind {A} (k : exn_kind) (m : result A) : Prop :=
  ∃ msg, m = Raise (Exn k msg).

(** The class of the exception that a call raises, [None] when it
    returns. *)
Definition raised_class {A} (m : result A) : option exn_kind :=
  match m with
  | Ok _ => None
  | Raise e => Some (exn_class e)
  end.


(** [sub] occurs in [s]. *)
Definition contains (sub s : string) : Prop :=
  ∃ pre post, s = pre +:+ sub +:+ post.

(** ** Chunk partitioner *)

Module Chunks.

(** [np.divmod] on integers: floor division and the remainder that has the
    sign of the divisor, which is what [Z.div] and [Z.modulo] are.  NumPy
    computes it on 64-bit integers, where it is exact for every pair that
    passes the guards of [split_array_chunks]: the quotient and the
    remainder are then between 0 and [n]. *)
Definition np_divmod (n blocks : Z) : Z * Z := (n `div` blocks, n `mod` blocks).

(** [k * t] for an integer [k] and a tuple [t]: [t] repeated [k] times, the
    empty tuple when [k <= 0]. *)
Definition tuple_repeat (k : Z) (t : list Z) : list Z :=
  mjoin (replicate (Z.to_nat k) t).

Definition msg_blocks_gt_n (n blocks : Z) : string :=
  "Number of blocks (" +:+ pretty blocks +:+ ") cannot be greater " +:+
  "than number of elements (" +:+ pretty n +:+ ")".
Definition msg_n_le_0 (n : Z) : string :=
  "Number of elements (" +:+ pretty n +:+ ") must be >= 0".
Definition msg_blocks_le_0 (blocks : Z) : string :=
  "Number of blocks (" +:+ pretty blocks +:+ ") must be >= 0".

(** [split_array_chunks], with the division routine it calls as an
    argument. *)
Definition split_array_chunks_with (divmod : Z → Z → Z * Z) (n blocks : Z) :
    result (list Z) :=
  if decide (blocks > n) then raise ValueError (msg_blocks_gt_n n blocks)
  else if decide (n ≤ 0) then raise ValueError (msg_n_le_0 n)
  else if decide (blocks ≤ 0) then raise ValueError (msg_blocks_le_0 blocks)
  else
    let '(n_div, n_mod) := divmod n blocks in
    let chunks :=
      tuple_repeat n_mod [n_div + 1] ++ tuple_repeat (blocks - n_mod) [n_div] in
    Ok chunks.

Definition split_array_chunks : Z → Z → result (list Z) :=
  split_array_chunks_with np_divmod.




End Chunks.

(** ** Contract validator *)

Module Validator.

(** A constraint argument that is not [None]: one required value or a set of
    acceptable values ([isinstance(c, set)]). *)
Inductive one_or_set (T : Type) `{Countable T} : Type :=
| One (t : T)
| AnyOf (s : gset T).
Global Arguments One {T _ _} t.
Global Arguments AnyOf {T _ _} s.

Definition array_attrs : list string := ["ndim"; "dtype"; "shape"].

(** [for x in l: body(x)], stopping at the first exception. *)
Fixpoint for_each {X} (l : list X) (body : X → result ()) : result () :=
  match l with
  | [] => Ok ()
  | x :: l => body x ;;! for_each l body
  end.

Section check_array_like.

(** [DType] is what a caller may pass for a dtype ([sgkit.typing.DType]),
    [NpDtype] is a NumPy dtype object, [np_dtype] is the constructor
    [np.dtype] that normalises the former to the latter, [dtype_kind] is
    the attribute [kind] of a dtype, and the [str_] functions are Python's
    formatting of a dtype and of a set inside an f-string. *)
Context {DType NpDtype : Type} `{Countable DType} `{Countable NpDtype}.
Variable np_dtype : DType → NpDtype.
Variable dtype_kind : NpDtype → string.
Variable str_dtype : NpDtype → string.
Variable str_dtype_set : gset NpDtype → string.
Variable str_kind_set : gset string → string.
Variable str_int_set : gset Z → string.

(** The value under test, as far as the function looks at it: each of the
    three attributes is present or absent. *)
Record obj : Type := Obj {
  obj_ndim : option Z;
  obj_dtype : option NpDtype;
  obj_shape : option (list Z)
}.

Definition hasattr (a : obj) (k : string) : bool :=
  if decide (k = "ndim") then bool_decide (is_Some (obj_ndim a))
  else if decide (k = "dtype") then bool_decide (is_Some (obj_dtype a))
  else if decide (k = "shape") then bool_decide (is_Some (obj_shape a))
  else false.

(** [a.ndim] and [a.dtype]: reading an absent attribute raises. *)
Definition get_ndim (a : obj) : result Z :=
  match obj_ndim a with
  | Some v => Ok v
  | None => raise AttributeError "object has no attribute 'ndim'"
  end.
Definition get_dtype (a : obj) : result NpDtype :=
  match obj_dtype a with
  | Some v => Ok v
  | None => raise AttributeError "object has no attribute 'dtype'"
  end.

Definition check_array_like (a : obj)
    (dtype : option (one_or_set DType))
    (kind : option (one_or_set string))
    (ndim : option (one_or_set Z)) : result () :=
  for_each array_attrs (λ k,
    if negb (hasattr a k)
    then raise TypeError ("Not an array. Missing attribute '" +:+ k +:+ "'")
    else Ok ()) ;;!
  match dtype with
  | None => Ok ()
  | Some (AnyOf dtype) =>
      let dtype : gset NpDtype := set_map np_dtype dtype in
      a_dtype ←! get_dtype a;
      if decide (a_dtype ∉ dtype)
      then raise TypeError
             ("Array dtype (" +:+ str_dtype a_dtype +:+
              ") does not match one of " +:+ str_dtype_set dtype)
      else Ok ()
  | Some (One dtype) =>
      a_dtype ←! get_dtype a;
      if decide (a_dtype ≠ np_dtype dtype)
      then raise TypeError
             ("Array dtype (" +:+ str_dtype a_dtype +:+
              ") does not match " +:+ str_dtype (np_dtype dtype))
      else Ok ()
  end ;;!
  match kind with
  | None => Ok ()
  | Some (AnyOf kind) =>
      a_dtype ←! get_dtype a;
      if decide (dtype_kind a_dtype ∉ kind)
      then raise TypeError
             ("Array dtype kind (" +:+ dtype_kind a_dtype +:+
              ") does not match one of " +:+ str_kind_set kind)
      else Ok ()
  | Some (One kind) =>
      a_dtype ←! get_dtype a;
      if decide (dtype_kind a_dtype ≠ kind)
      then raise TypeError
             ("Array dtype kind (" +:+ dtype_kind a_dtype +:+
              ") does not match " +:+ kind)
      else Ok ()
  end ;;!
  match ndim with
  | None => Ok ()
  | Some (AnyOf ndim) =>
      a_ndim ←! get_ndim a;
      if decide (a_ndim ∉ ndim)
      then raise ValueError
             ("Number of dimensions (" +:+ pretty a_ndim +:+
              ") does not match one of " +:+ str_int_set ndim)
      else Ok ()
  | Some (One ndim) =>
      a_ndim ←! get_ndim a;
      if decide (ndim ≠ a_ndim)
      then raise ValueError
             ("Number of dimensions (" +:+ pretty a_ndim +:+
              ") does not match " +:+ pretty ndim)
      else Ok ()
  end.

(** What the specification calls the checks. *)
Definition has_attrs (a : obj) : Prop :=
  is_Some (obj_ndim a) ∧ is_Some (obj_dtype a) ∧ is_Some (obj_shape a).

Definition dtype_ok (a : obj) (c : option (one_or_set DType)) : Prop :=
  match c with
  | None => True
  | Some (One t) => obj_dtype a = Some (np_dtype t)
  | Some (AnyOf s) =>
      ∃ d, obj_dtype a = Some d ∧ d ∈ (set_map np_dtype s : gset NpDtype)
  end.

Definition kind_ok (a : obj) (c : option (one_or_set string)) : Prop :=
  match c with
  | None => True
  | Some (One k) => dtype_kind <$> obj_dtype a = Some k
  | Some (AnyOf s) => ∃ d, obj_dtype a = Some d ∧ dtype_kind d ∈ s
  end.

Definition ndim_ok (a : obj) (c : option (one_or_set Z)) : Prop :=
  match c with
  | None => True
  | Some (One z) => obj_ndim a = Some z
  | Some (AnyOf s) => ∃ z, obj_ndim a = Some z ∧ z ∈ s
  end.

End check_array_like.

Global Arguments obj : clear implicits.
Global Arguments Obj {NpDtype} _ _ _.

End Validator.

(** A small universe of dtypes to run the validator on: a dtype object is
    its canonical name, [np.dtype] resolves the short codes, and a set is
    formatted the way Python prints one. *)
Module Dtypes.

Definition np_dtype (t : string) : string :=
  if decide (t = "i8") then "int64"
  else if decide (t = "f8") then "float64"
  else t.

Definition dtype_kind (d : string) : string :=
  if decide (d = "int64") then "i"
  else if decide (d = "float64") then "f"
  else "O".

Definition str_dtype (d : string) : string := d.

Fixpoint join (sep : string) (l : list string) : string :=
  match l with
  | [] => ""
  | [x] => x
  | x :: l => x +:+ sep +:+ join sep l
  end.

Definition str_set (l : list string) : string :=
  match l with
  | [] => "set()"
  | _ => "{" +:+ join ", " l +:+ "}"
  end.

Definition str_dtype_set (s : gset string) : string :=
  str_set ((λ d, "dtype('" +:+ d +:+ "')") <$> elements s).
Definition str_kind_set (s : gset string) : string :=
  str_set ((λ k, "'" +:+ k +:+ "'") <$> elements s).
Definition str_int_set (s : gset Z) : string :=
  str_set (pretty <$> elements s).

Definition check_array_like :=
  Validator.check_array_like
    np_dtype dtype_kind str_dtype str_dtype_set str_kind_set str_int_set.

(** A two-dimensional array of 64-bit integers, a value without [dtype], and
    a one-dimensional array of 64-bit integers. *)
Definition matrix_i8 : Validator.obj string :=
  Validator.Obj (Some 2) (Some "int64") (Some [3; 4]).
Definition no_dtype : Validator.obj string :=
  Validator.Obj (Some 1) None (Some [3]).
Definition vector_i8 : Validator.obj string :=
  Validator.Obj (Some 1) (Some "int64") (Some [3]).

End Dtypes.

(** ** Stable encoder *)

Module Encoder.

(** The order NumPy sorts indices by, on pairs of a key and a position. *)
Definition key_le : relation (nat * nat) := λ p q, (p.1 ≤ q.1)%nat.
Global Instance key_le_dec : RelDecision key_le := λ p q, decide (p.1 ≤ q.1)%nat.

(** [np.argsort(l)]: the positions of [l] in the order that sorts [l]. *)
Definition np_argsort (l : list nat) : list nat :=
  (merge_sort key_le (zip l (seq 0 (length l)))).*2.

(** [np.arange(n)]. *)
Definition np_arange (n : nat) : list nat := seq 0 n.

(** [arr[idx]] with an integer array [idx]: the entries of [arr] at the
    positions [idx]; a position outside [arr] raises. *)
Fixpoint getitem {B} (arr : list B) (idx : list nat) : result (list B) :=
  match idx with
  | [] => Ok []
  | i :: idx =>
      match arr !! i with
      | Some v => vs ←! getitem arr idx; Ok (v :: vs)
      | None => raise IndexError "index is out of bounds"
      end
  end.

(** [arr[idx] = vals] with integer arrays [idx] and [vals] of one length:
    the writes happen in the order of [idx]; the result is the array after
    the assignment. *)
Fixpoint setitem (arr idx vals : list nat) : result (list nat) :=
  match idx, vals with
  | [], [] => Ok arr
  | i :: idx, v :: vals =>
      if decide (i < length arr)%nat then setitem (<[i:=v]> arr) idx vals
      else raise IndexError "index is out of bounds"
  | _, _ => raise ValueError "shape mismatch"
  end.

Section encode_array.

(** The elements with their equality and the order NumPy sorts them by. *)
Context {A : Type} `{EqDecision A} (le : relation A) `{!RelDecision le}.

(** What a freshly allocated, uninitialised array holds at each
    position. *)
Variable uninit : nat → nat.

(** Position of the first occurrence of [v] in [l] ([length l] when there
    is none). *)
Fixpoint first_index (v : A) (l : list A) : nat :=
  match l with
  | [] => 0
  | y :: l' => if decide (y = v) then 0 else S (first_index v l')
  end.

(** [np.unique(x, return_index=True, return_inverse=True)]: the sorted
    distinct values, the position of the first occurrence of each of them
    in [x], and for each entry of [x] its position among the sorted
    distinct values. *)
Definition np_unique (x : list A) : list A * list nat * list nat :=
  let names := merge_sort le (remove_dups x) in
  (names, (λ v, first_index v x) <$> names, (λ v, first_index v names) <$> x).

(** [np.empty_like(l)]: an array of the length of [l] whose contents are
    whatever the memory held. *)
Definition np_empty_like (l : list nat) : list nat :=
  uninit <$> seq 0 (length l).

Definition encode_array (x : list A) : result (list nat * list A) :=
  let '(names, index, inverse) := np_unique x in
  let index := np_argsort index in
  let rank := np_empty_like index in
  rank ←! setitem rank index (np_arange (length index));
  codes ←! getitem rank inverse;
  uniques ←! getitem names index;
  Ok (codes, uniques).

(** The invariant of an encoding result: [codes] has one entry for each
    entry of [x], [uniques] at that entry is the entry of [x], and
    [uniques] holds values of [x] in the order of their first
    occurrences. *)
Definition encodes (x : list A) (codes : list nat) (uniques : list A) : Prop :=
  length codes = length x ∧
  (∀ i v, x !! i = Some v →
          ∃ c, codes !! i = Some c ∧ uniques !! c = Some v) ∧
  (∀ j k a b, (j < k)%nat → uniques !! j = Some a → uniques !! k = Some b →
              (first_index a x < first_index b x)%nat) ∧
  (∀ v, v ∈ uniques → v ∈ x).

(** The values of [x] in order of appearance, each once: one pass that
    keeps a value when it is met for the first time. *)
Definition order_of_appearance (x : list A) : list A :=
  foldl (λ seen v, if decide (v ∈ seen) then seen else seen ++ [v]) [] x.

End encode_array.

End Encoder.

(** * Proofs *)

(** ** Strings *)

Section string_facts.



Lemma string_app_assoc (s t u : string) : (s +:+ t) +:+ u = s +:+ (t +:+ u).
Proof.
  induction s as [|c s IH]; [done|].
  change ((String c s +:+ t) +:+ u) with (String c ((s +:+ t) +:+ u)).
  by rewrite IH.
Qed.

Lemma string_app_nil_r (s : string) : s +:+ "" = s.
Proof.
  induction s as [|c s IH]; [done|].
  change (String c s +:+ "") with (String c (s +:+ "")). by rewrite IH.
Qed.

Lemma contains_refl (sub : string) : contains sub sub.
Proof. exists "", "". by rewrite string_app_nil_r. Qed.

Lemma contains_app_r (sub s t : string) :
  contains sub t → contains sub (s +:+ t).
Proof.
  intros (pre & post & ->). exists (s +:+ pre), post.
  by rewrite string_app_assoc.
Qed.

End string_facts.

(** ** Chunk partitioner *)

Module ChunksFacts.
Import Chunks.

Example split_7_2 : split_array_chunks 7 2 = Ok [4; 3].
Proof. reflexivity. Qed.
Example split_7_3 : split_array_chunks 7 3 = Ok [3; 2; 2].
Proof. reflexivity. Qed.
Example split_7_1 : split_array_chunks 7 1 = Ok [7].
Proof. reflexivity. Qed.
Example split_7_7 : split_array_chunks 7 7 = Ok [1; 1; 1; 1; 1; 1; 1].
Proof. reflexivity. Qed.















(** C10: the guards are tried in the order [blocks > n], [n <= 0],
    [blocks <= 0], and the first one that holds decides the error:
    [split_array_chunks(-1, 0)] reports the blocks against the elements and
    [split_array_chunks(0, 0)] reports the elements. *)
Theorem split_array_chunks_guard_order (n blocks : Z) :
  (blocks > n →
   split_array_chunks n blocks = raise ValueError (msg_blocks_gt_n n blocks)) ∧
  (¬ blocks > n → n ≤ 0 →
   split_array_chunks n blocks = raise ValueError (msg_n_le_0 n)) ∧
  (¬ blocks > n → ¬ n ≤ 0 → blocks ≤ 0 →
   split_array_chunks n blocks = raise ValueError (msg_blocks_le_0 blocks)) ∧
  split_array_chunks (-1) 0 =
    raise ValueError
      "Number of blocks (0) cannot be greater than number of elements (-1)" ∧
  split_array_chunks 0 0 =
    raise ValueError "Number of elements (0) must be >= 0".
Proof.
  unfold split_array_chunks, split_array_chunks_with.
  split_and!; try reflexivity; intros; repeat case_decide; done || lia.
Qed.

Lemma split_array_chunks_guard_order_witness :
  split_array_chunks (-1) 0 = raise ValueError (msg_blocks_gt_n (-1) 0) ∧
  split_array_chunks 0 0 = raise ValueError (msg_n_le_0 0) ∧
  split_array_chunks 5 0 = raise ValueError (msg_blocks_le_0 0).
Proof.
  split_and!.
  - destruct (split_array_chunks_guard_order (-1) 0) as (H & _). apply H. lia.
  - destruct (split_array_chunks_guard_order 0 0) as (_ & H & _).
    apply H; lia.
  - destruct (split_array_chunks_guard_order 5 0) as (_ & _ & H & _).
    apply H; lia.
Defined.

End ChunksFacts.

(** ** Contract validator *)

Module ValidatorFacts.
Import Validator.

#[local] Set Warnings "-clear-no-such-hyp".

Section check_array_like.

Context {DType NpDtype : Type} `{Countable DType} `{Countable NpDtype}.
Variable np_dtype : DType → NpDtype.
Variable dtype_kind : NpDtype → string.
Variable str_dtype : NpDtype → string.
Variable str_dtype_set : gset NpDtype → string.
Variable str_kind_set : gset string → string.
Variable str_int_set : gset Z → string.

Abbreviation check :=
  (check_array_like np_dtype dtype_kind str_dtype
     str_dtype_set str_kind_set str_int_set).
Abbreviation missing k :=
  (raise TypeError ("Not an array. Missing attribute '" +:+ k +:+ "'")).

(** The loop over [array_attrs], unrolled. *)
Lemma check_attrs (a : obj NpDtype) :
  for_each array_attrs (λ k, if negb (hasattr a k) then missing k else Ok ()) =
  match obj_ndim a, obj_dtype a, obj_shape a with
  | None, _, _ => missing "ndim"
  | Some _, None, _ => missing "dtype"
  | Some _, Some _, None => missing "shape"
  | Some _, Some _, Some _ => Ok ()
  end.
Proof. by destruct a as [[?|] [?|] [?|]]. Qed.

Lemma has_attrs_inv (a : obj NpDtype) :
  has_attrs a →
  ∃ z d sh, obj_ndim a = Some z ∧ obj_dtype a = Some d ∧ obj_shape a = Some sh.
Proof. intros ([z ?] & [d ?] & [sh ?]). eauto 7. Qed.

Ltac run_check :=
  unfold check_array_like, get_dtype, get_ndim; rewrite check_attrs;
  repeat match goal with
         | E : obj_ndim _ = _ |- _ => rewrite E
         | E : obj_dtype _ = _ |- _ => rewrite E
         | E : obj_shape _ = _ |- _ => rewrite E
         end;
  simpl.

Lemma check_array_like_no_attrs (a : obj NpDtype) dtype kind ndim :
  ¬ has_attrs a →
  check a dtype kind ndim = check a None None None ∧
  ∃ (i : nat) (k : string),
    array_attrs !! i = Some k ∧ hasattr a k = false ∧
    (∀ (j : nat) k', (j < i)%nat → array_attrs !! j = Some k' →
                     hasattr a k' = true) ∧
    check a dtype kind ndim = missing k.
Proof.
  intros Hno. destruct a as [[z|] [d|] [sh|]].
  { destruct Hno. unfold has_attrs. simpl. eauto. }
  all: split; [by run_check|].
  - exists 2%nat, "shape". split_and!; try done.
    intros [|[|j]] k' ? Hk; simplify_eq/=; (done || lia).
  - exists 1%nat, "dtype". split_and!; try done.
    intros [|j] k' ? Hk; simplify_eq/=; (done || lia).
  - exists 1%nat, "dtype". split_and!; try done.
    intros [|j] k' ? Hk; simplify_eq/=; (done || lia).
  - exists 0%nat, "ndim". split_and!; try done. intros; lia.
  - exists 0%nat, "ndim". split_and!; try done. intros; lia.
  - exists 0%nat, "ndim". split_and!; try done. intros; lia.
  - exists 0%nat, "ndim". split_and!; try done. intros; lia.
Qed.

Abbreviation d_ok := (dtype_ok np_dtype).
Abbreviation k_ok := (kind_ok dtype_kind).

Ltac split_constraints :=
  repeat match goal with
         | c : option (one_or_set _) |- _ => destruct c as [[?|?]|]
         end.

Ltac solve_check :=
  unfold dtype_ok, kind_ok, ndim_ok, raises_kind, raise in *;
  match goal with a : obj _ |- _ => destruct a end; simplify_eq/=;
  repeat (case_decide; simplify_eq/=); naive_solver.

(** With the three attributes present the call succeeds exactly when the
    three constraints hold. *)
Lemma check_array_like_Ok_iff (a : obj NpDtype) dtype kind ndim :
  has_attrs a →
  check a dtype kind ndim = Ok () ↔
  d_ok a dtype ∧ k_ok a kind ∧ ndim_ok a ndim.
Proof.
  intros (z & d & sh & Hz & Hd & Hsh)%has_attrs_inv.
  split_constraints; run_check; solve_check.
Qed.

Lemma check_array_like_dtype_fails (a : obj NpDtype) dtype kind ndim :
  has_attrs a → ¬ d_ok a dtype →
  raises_kind TypeError (check a dtype kind ndim) ∧
  ∀ kind' ndim', check a dtype kind ndim = check a dtype kind' ndim'.
Proof.
  intros (z & d & sh & Hz & Hd & Hsh)%has_attrs_inv Hno.
  split; [|intros kind' ndim'];
    split_constraints; run_check; solve_check.
Qed.

Lemma check_array_like_kind_fails (a : obj NpDtype) dtype kind ndim :
  has_attrs a → d_ok a dtype → ¬ k_ok a kind →
  raises_kind TypeError (check a dtype kind ndim) ∧
  ∀ ndim', check a dtype kind ndim = check a dtype kind ndim'.
Proof.
  intros (z & d & sh & Hz & Hd & Hsh)%has_attrs_inv Hdt Hno.
  split; [|intros ndim'];
    split_constraints; run_check; solve_check.
Qed.

Lemma check_array_like_ndim_fails (a : obj NpDtype) dtype kind ndim :
  has_attrs a → d_ok a dtype → k_ok a kind → ¬ ndim_ok a ndim →
  raises_kind ValueError (check a dtype kind ndim).
Proof.
  intros (z & d & sh & Hz & Hd & Hsh)%has_attrs_inv Hdt Hk Hno.
  split_constraints; run_check; solve_check.
Qed.

(** C5: a value that lacks one of [ndim], [dtype], [shape] is refused with
    a [TypeError] that names the first attribute, in that order, that it
    lacks; the outcome is the same whatever the three constraints are. *)
Theorem check_array_like_missing_attribute (a : obj NpDtype) dtype kind ndim :
  ¬ has_attrs a →
  ∃ (i : nat) (k : string),
    array_attrs !! i = Some k ∧ hasattr a k = false ∧
    (∀ (j : nat) k', (j < i)%nat → array_attrs !! j = Some k' →
                     hasattr a k' = true) ∧
    check a dtype kind ndim =
      raise TypeError ("Not an array. Missing attribute '" +:+ k +:+ "'") ∧
    ∀ dtype' kind' ndim',
      check a dtype kind ndim = check a dtype' kind' ndim'.
Proof.
  intros Hno.
  destruct (check_array_like_no_attrs a dtype kind ndim Hno)
    as (Hnone & i & k & Hi & Hk & Hbefore & Hres).
  exists i, k. split_and!; try done.
  intros dtype' kind' ndim'. rewrite Hnone.
  by destruct (check_array_like_no_attrs a dtype' kind' ndim' Hno) as [-> _].
Qed.

(** C6: the checks run in the order attributes, dtype, kind, ndim, and the
    first that fails decides the outcome whatever the later constraints
    are; a missing attribute and a dtype or kind mismatch are a
    [TypeError], an ndim mismatch is a [ValueError]; when all checks pass
    the call returns the unit value. *)
Theorem check_array_like_short_circuit (a : obj NpDtype) dtype kind ndim :
  (¬ has_attrs a →
   raises_kind TypeError (check a dtype kind ndim) ∧
   ∀ dtype' kind' ndim',
     check a dtype kind ndim = check a dtype' kind' ndim') ∧
  (has_attrs a → ¬ d_ok a dtype →
   raises_kind TypeError (check a dtype kind ndim) ∧
   ∀ kind' ndim', check a dtype kind ndim = check a dtype kind' ndim') ∧
  (has_attrs a → d_ok a dtype → ¬ k_ok a kind →
   raises_kind TypeError (check a dtype kind ndim) ∧
   ∀ ndim', check a dtype kind ndim = check a dtype kind ndim') ∧
  (has_attrs a → d_ok a dtype → k_ok a kind → ¬ ndim_ok a ndim →
   raises_kind ValueError (check a dtype kind ndim)) ∧
  (has_attrs a → d_ok a dtype → k_ok a kind → ndim_ok a ndim →
   check a dtype kind ndim = Ok ()) ∧
  TypeError ≠ ValueError.
Proof.
  split_and!.
  - intros Hno.
    destruct (check_array_like_no_attrs a dtype kind ndim Hno)
      as (Hnone & i & k & _ & _ & _ & Hres).
    split; [rewrite Hres; by eexists|].
    intros dtype' kind' ndim'. rewrite Hnone.
    by destruct (check_array_like_no_attrs a dtype' kind' ndim' Hno) as [-> _].
  - apply check_array_like_dtype_fails.
  - apply check_array_like_kind_fails.
  - apply check_array_like_ndim_fails.
  - intros. by apply check_array_like_Ok_iff.
  - discriminate.
Qed.

(** C7: with the three attributes present and a set for [dtype], [kind]
    or [ndim], the call succeeds exactly when the attribute is in the set
    (for [dtype]: in the set of the normalised members), the other
    constraints being absent or met; and when it is not in the set the
    exception's message contains the whole set as Python formats it. *)
Theorem check_array_like_set_constraints (a : obj NpDtype) (z : Z) (d : NpDtype) :
  obj_ndim a = Some z → obj_dtype a = Some d → is_Some (obj_shape a) →
  (∀ (s : gset DType) kind ndim,
     (k_ok a kind → ndim_ok a ndim →
      check a (Some (AnyOf s)) kind ndim = Ok () ↔
      d ∈ (set_map np_dtype s : gset NpDtype)) ∧
     (d ∉ (set_map np_dtype s : gset NpDtype) →
      ∃ msg, check a (Some (AnyOf s)) kind ndim = raise TypeError msg ∧
             contains (str_dtype_set (set_map np_dtype s)) msg)) ∧
  (∀ (s : gset string) dtype ndim,
     (d_ok a dtype → ndim_ok a ndim →
      check a dtype (Some (AnyOf s)) ndim = Ok () ↔ dtype_kind d ∈ s) ∧
     (d_ok a dtype → dtype_kind d ∉ s →
      ∃ msg, check a dtype (Some (AnyOf s)) ndim = raise TypeError msg ∧
             contains (str_kind_set s) msg)) ∧
  (∀ (s : gset Z) dtype kind,
     (d_ok a dtype → k_ok a kind →
      check a dtype kind (Some (AnyOf s)) = Ok () ↔ z ∈ s) ∧
     (d_ok a dtype → k_ok a kind → z ∉ s →
      ∃ msg, check a dtype kind (Some (AnyOf s)) = raise ValueError msg ∧
             contains (str_int_set s) msg)).
Proof.
  intros Hz Hd Hsh.
  assert (has_attrs a) as Hattrs by (unfold has_attrs; rewrite Hz, Hd; eauto).
  destruct Hsh as [sh Hsh].
  split_and!; intros s c1 c2; split.
  - intros Hk Hn. rewrite check_array_like_Ok_iff by done.
    unfold dtype_ok. naive_solver.
  - intros Hno.
    exists ("Array dtype (" +:+ str_dtype d +:+
            ") does not match one of " +:+ str_dtype_set (set_map np_dtype s)).
    split; [|do 3 apply contains_app_r; apply contains_refl].
    run_check. by case_decide.
  - intros Hdt Hn. rewrite check_array_like_Ok_iff by done.
    unfold kind_ok. naive_solver.
  - intros Hdt Hno.
    exists ("Array dtype kind (" +:+ dtype_kind d +:+
            ") does not match one of " +:+ str_kind_set s).
    split; [|do 3 apply contains_app_r; apply contains_refl].
    destruct c1 as [[?|?]|]; run_check; solve_check.
  - intros Hdt Hk. rewrite check_array_like_Ok_iff by done.
    unfold ndim_ok. naive_solver.
  - intros Hdt Hk Hno.
    exists ("Number of dimensions (" +:+ pretty z +:+
            ") does not match one of " +:+ str_int_set s).
    split; [|do 3 apply contains_app_r; apply contains_refl].
    destruct c1 as [[?|?]|], c2 as [[?|?]|]; run_check; solve_check.
Qed.

End check_array_like.

Lemma check_array_like_missing_attribute_witness :
  ∃ (i : nat) (k : string),
    array_attrs !! i = Some k ∧ hasattr Dtypes.no_dtype k = false ∧
    (∀ (j : nat) k', (j < i)%nat → array_attrs !! j = Some k' →
                     hasattr Dtypes.no_dtype k' = true) ∧
    Dtypes.check_array_like Dtypes.no_dtype (Some (One "i8")) None None =
      raise TypeError ("Not an array. Missing attribute '" +:+ k +:+ "'") ∧
    ∀ dtype' kind' ndim',
      Dtypes.check_array_like Dtypes.no_dtype (Some (One "i8")) None None =
      Dtypes.check_array_like Dtypes.no_dtype dtype' kind' ndim'.
Proof.
  apply (check_array_like_missing_attribute
           Dtypes.np_dtype Dtypes.dtype_kind Dtypes.str_dtype
           Dtypes.str_dtype_set Dtypes.str_kind_set Dtypes.str_int_set
           Dtypes.no_dtype (Some (One "i8")) None None).
  intros (_ & [d Hd] & _). discriminate Hd.
Defined.

Example check_array_like_no_dtype :
  Dtypes.check_array_like Dtypes.no_dtype (Some (One "i8")) None None =
  raise TypeError "Not an array. Missing attribute 'dtype'".
Proof. reflexivity. Qed.

Lemma check_array_like_short_circuit_witness :
  raises_kind TypeError
    (Dtypes.check_array_like Dtypes.no_dtype None None (Some (One 7))) ∧
  raises_kind TypeError
    (Dtypes.check_array_like Dtypes.vector_i8
       (Some (One "f8")) (Some (One "f")) (Some (One 2))) ∧
  raises_kind ValueError
    (Dtypes.check_array_like Dtypes.vector_i8
       (Some (One "i8")) (Some (One "i")) (Some (One 2))) ∧
  Dtypes.check_array_like Dtypes.vector_i8
    (Some (One "i8")) (Some (One "i")) (Some (One 1)) = Ok ().
Proof.
  assert (has_attrs Dtypes.vector_i8) as Hattrs.
  { unfold has_attrs. simpl. eauto. }
  split_and!.
  - destruct (check_array_like_short_circuit
                Dtypes.np_dtype Dtypes.dtype_kind Dtypes.str_dtype
                Dtypes.str_dtype_set Dtypes.str_kind_set Dtypes.str_int_set
                Dtypes.no_dtype None None (Some (One 7))) as (Hc & _).
    apply Hc. intros (_ & [d Hd] & _). discriminate Hd.
  - destruct (check_array_like_short_circuit
                Dtypes.np_dtype Dtypes.dtype_kind Dtypes.str_dtype
                Dtypes.str_dtype_set Dtypes.str_kind_set Dtypes.str_int_set
                Dtypes.vector_i8 (Some (One "f8")) (Some (One "f"))
                (Some (One 2))) as (_ & Hc & _).
    apply Hc; [done|]. simpl. discriminate.
  - destruct (check_array_like_short_circuit
                Dtypes.np_dtype Dtypes.dtype_kind Dtypes.str_dtype
                Dtypes.str_dtype_set Dtypes.str_kind_set Dtypes.str_int_set
                Dtypes.vector_i8 (Some (One "i8")) (Some (One "i"))
                (Some (One 2))) as (_ & _ & _ & Hc & _).
    apply Hc; [done|reflexivity|reflexivity|]. simpl. discriminate.
  - destruct (check_array_like_short_circuit
                Dtypes.np_dtype Dtypes.dtype_kind Dtypes.str_dtype
                Dtypes.str_dtype_set Dtypes.str_kind_set Dtypes.str_int_set
                Dtypes.vector_i8 (Some (One "i8")) (Some (One "i"))
                (Some (One 1))) as (_ & _ & _ & _ & Hc & _).
    apply Hc; [done|reflexivity..].
Defined.

Lemma check_array_like_set_constraints_witness :
  (Dtypes.check_array_like Dtypes.matrix_i8
     (Some (One "i8")) None (Some (AnyOf {[1; 2]})) = Ok () ↔
   2 ∈ ({[1; 2]} : gset Z)) ∧
  (∃ msg,
     Dtypes.check_array_like Dtypes.matrix_i8
       (Some (One "i8")) None (Some (AnyOf {[1; 3]})) = raise ValueError msg ∧
     contains (Dtypes.str_int_set {[1; 3]}) msg).
Proof.
  destruct (check_array_like_set_constraints
              Dtypes.np_dtype Dtypes.dtype_kind Dtypes.str_dtype
              Dtypes.str_dtype_set Dtypes.str_kind_set Dtypes.str_int_set
              Dtypes.matrix_i8 2 "int64") as (_ & _ & Hn).
  - reflexivity.
  - reflexivity.
  - simpl. eauto.
  - split.
    + apply (Hn {[1; 2]} (Some (One "i8")) None); [reflexivity|exact I].
    + apply (Hn {[1; 3]} (Some (One "i8")) None); [reflexivity|exact I|].
      vm_compute. intros E. discriminate E.
Defined.

Example check_array_like_ndim_set_fails :
  Dtypes.check_array_like Dtypes.matrix_i8
    (Some (AnyOf {["i8"; "f8"]})) (Some (AnyOf {["i"; "f"]}))
    (Some (AnyOf {[3]})) =
  raise ValueError "Number of dimensions (2) does not match one of {3}".
Proof. vm_compute. reflexivity. Qed.

Example check_array_like_sets_pass :
  Dtypes.check_array_like Dtypes.matrix_i8
    (Some (AnyOf {["i8"; "f8"]})) (Some (AnyOf {["i"; "f"]}))
    (Some (AnyOf {[1; 2]})) = Ok ().
Proof. vm_compute. reflexivity. Qed.

End ValidatorFacts.

(** ** Stable encoder *)

Module EncoderFacts.
Import Encoder.

Local Open Scope nat_scope.

Global Instance key_le_trans : Transitive key_le.
Proof. intros p q r. unfold key_le. lia. Qed.

Global Instance key_le_total : Total key_le.
Proof. intros p q. unfold key_le. lia. Qed.

Lemma StronglySorted_lookup {B} (R : relation B) (l : list B) i j x y :
  StronglySorted R l → i < j → l !! i = Some x → l !! j = Some y → R x y.
Proof.
  intros Hs. revert i j. induction Hs as [|z l Hs IH Hz]; intros i j Hij Hi Hj.
  { by rewrite lookup_nil in Hi. }
  destruct j as [|j]; [lia|]. destruct i as [|i]; simplify_eq/=.
  - eapply Forall_forall; [done|]. by eapply list_elem_of_lookup_2.
  - eapply (IH i j); [lia|done..].
Qed.

(** *** Fancy indexing *)

Lemma getitem_Ok {B} (arr : list B) (idx : list nat) :
  (∀ i, i ∈ idx → i < length arr) →
  ∃ res, getitem arr idx = Ok res ∧ Forall2 (λ i v, arr !! i = Some v) idx res.
Proof.
  induction idx as [|i idx IH]; intros Hin; simpl.
  { exists []. by split. }
  destruct (lookup_lt_is_Some_2 arr i) as [v Hv].
  { apply Hin. by left. }
  destruct IH as (res & -> & Hres).
  { intros j Hj. apply Hin. by right. }
  rewrite Hv. simpl. exists (v :: res). split; [done|]. by constructor.
Qed.

Lemma setitem_Ok (arr idx vals : list nat) :
  length idx = length vals →
  (∀ i, i ∈ idx → i < length arr) →
  ∃ arr', setitem arr idx vals = Ok arr' ∧
          length arr' = length arr ∧
          (∀ p, p ∉ idx → arr' !! p = arr !! p) ∧
          (NoDup idx → ∀ j i v,
             idx !! j = Some i → vals !! j = Some v → arr' !! i = Some v).
Proof.
  revert arr vals.
  induction idx as [|i idx IH]; intros arr [|v vals] Hlen Hin; simplify_eq/=.
  { exists arr. by split_and!. }
  rewrite decide_True by (apply Hin; by left).
  destruct (IH (<[i:=v]> arr) vals) as (arr' & Hset & Hl & Hout & Hwr).
  { done. }
  { intros j Hj. rewrite length_insert. apply Hin. by right. }
  exists arr'. split_and!.
  - done.
  - by rewrite Hl, length_insert.
  - intros p Hp. rewrite Hout by (intros ?; apply Hp; by right).
    apply list_lookup_insert_ne. intros ->. apply Hp. by left.
  - intros [Hni Hnd]%NoDup_cons j i' v' Hj Hv. destruct j as [|j]; simplify_eq/=.
    + rewrite Hout by done. apply list_lookup_insert_eq. apply Hin. by left.
    + by eapply Hwr.
Qed.

(** *** [np.argsort] *)

Lemma np_argsort_perm (l : list nat) : np_argsort l ≡ₚ seq 0 (length l).
Proof.
  unfold np_argsort. rewrite merge_sort_Permutation.
  by rewrite snd_zip by (by rewrite length_seq).
Qed.

Lemma np_argsort_length (l : list nat) : length (np_argsort l) = length l.
Proof. by rewrite np_argsort_perm, length_seq. Qed.

Lemma np_argsort_elem_of (l : list nat) p : p ∈ np_argsort l ↔ p < length l.
Proof. rewrite np_argsort_perm, elem_of_seq. lia. Qed.

Lemma np_argsort_NoDup (l : list nat) : NoDup (np_argsort l).
Proof. rewrite np_argsort_perm. apply NoDup_seq. Qed.

Lemma np_argsort_sorted (l : list nat) j k p q a b :
  j < k → np_argsort l !! j = Some p → np_argsort l !! k = Some q →
  l !! p = Some a → l !! q = Some b → a ≤ b.
Proof.
  unfold np_argsort. intros Hjk Hj Hk Hp Hq.
  set (s := merge_sort key_le (zip l (seq 0 (length l)))) in *.
  assert (∀ i r, s.*2 !! i = Some r → ∃ c, s !! i = Some (c, r) ∧ l !! r = Some c)
    as Hview.
  { intros i r Hi. apply list_lookup_fmap_Some in Hi as ([c r'] & -> & Hi).
    simpl. exists c. split; [done|].
    assert ((c, r') ∈ zip l (seq 0 (length l))) as Hin.
    { rewrite <-(merge_sort_Permutation key_le). by eapply list_elem_of_lookup_2. }
    apply list_elem_of_lookup in Hin as [m Hm].
    apply lookup_zip_Some in Hm as [Hc Hr].
    apply lookup_seq in Hr as [Hr _]. simpl in Hr. by subst. }
  destruct (Hview _ _ Hj) as (a' & Hsj & Ha').
  destruct (Hview _ _ Hk) as (b' & Hsk & Hb'). simplify_eq.
  pose proof (StronglySorted_merge_sort key_le (zip l (seq 0 (length l)))) as Hs.
  apply (StronglySorted_lookup key_le _ j k _ _ Hs Hjk Hsj Hsk).
Qed.

Section encode_array.

Context {A : Type} `{EqDecision A} (le : relation A) `{!RelDecision le}.

(** *** First occurrences *)

Lemma first_index_lookup (v : A) l : v ∈ l → l !! first_index v l = Some v.
Proof.
  induction l as [|y l IH]; intros Hin; [by apply elem_of_nil in Hin|].
  simpl. case_decide; [by subst|].
  apply elem_of_cons in Hin as [->|Hin]; [done|]. by apply IH.
Qed.

Lemma first_index_lt (v : A) l : v ∈ l → first_index v l < length l.
Proof. intros Hin. eapply lookup_lt_Some. by apply first_index_lookup. Qed.

Lemma first_index_least (v : A) l j : l !! j = Some v → first_index v l ≤ j.
Proof.
  revert j. induction l as [|y l IH]; intros j Hj; [by rewrite lookup_nil in Hj|].
  simpl. case_decide; [lia|]. destruct j as [|j]; simplify_eq/=.
  specialize (IH j Hj). lia.
Qed.


Lemma first_index_inj (u v : A) l :
  u ∈ l → v ∈ l → first_index u l = first_index v l → u = v.
Proof.
  intros Hu%first_index_lookup Hv%first_index_lookup E.
  rewrite E in Hu. congruence.
Qed.

(** *** [np.unique] *)

Lemma np_unique_names (x : list A) :
  (np_unique le x).1.1 ≡ₚ remove_dups x.
Proof. apply merge_sort_Permutation. Qed.

Lemma np_unique_names_NoDup (x : list A) : NoDup (np_unique le x).1.1.
Proof. rewrite np_unique_names. apply NoDup_remove_dups. Qed.

Lemma np_unique_names_elem_of (x : list A) v :
  v ∈ (np_unique le x).1.1 ↔ v ∈ x.
Proof. rewrite np_unique_names. apply elem_of_remove_dups. Qed.

(** *** The ranks written by the fancy assignment *)

(** After [rank[index] = arange(len(index))] with [index] a permutation of
    the positions, [rank] is the inverse permutation, whatever [rank] held
    before. *)
Lemma setitem_inverse (rank perm : list nat) :
  perm ≡ₚ seq 0 (length perm) → length rank = length perm →
  ∃ rank', setitem rank perm (np_arange (length perm)) = Ok rank' ∧
           length rank' = length perm ∧
           ∀ j p, perm !! j = Some p → rank' !! p = Some j.
Proof.
  intros Hperm Hlen.
  destruct (setitem_Ok rank perm (np_arange (length perm)))
    as (rank' & Hset & Hl & _ & Hwr).
  { unfold np_arange. by rewrite length_seq. }
  { intros i Hi. rewrite Hperm, elem_of_seq in Hi. lia. }
  exists rank'. split_and!; [done|lia|].
  intros j p Hj. apply (Hwr ltac:(rewrite Hperm; apply NoDup_seq) j p j Hj).
  unfold np_arange. apply lookup_seq. split; [done|]. by eapply lookup_lt_Some.
Qed.

Lemma setitem_inverse_unique (rank1 rank2 perm : list nat) :
  perm ≡ₚ seq 0 (length perm) →
  length rank1 = length perm → length rank2 = length perm →
  setitem rank1 perm (np_arange (length perm)) =
  setitem rank2 perm (np_arange (length perm)).
Proof.
  intros Hperm Hl1 Hl2.
  destruct (setitem_inverse rank1 perm Hperm Hl1) as (r1 & -> & Hr1 & Hw1).
  destruct (setitem_inverse rank2 perm Hperm Hl2) as (r2 & -> & Hr2 & Hw2).
  f_equal. apply list_eq. intros p.
  destruct (decide (p < length perm)) as [Hp|Hp].
  - assert (p ∈ perm) as [j Hj]%list_elem_of_lookup.
    { rewrite Hperm, elem_of_seq. lia. }
    by rewrite (Hw1 j p Hj), (Hw2 j p Hj).
  - rewrite !lookup_ge_None_2; [done|lia..].
Qed.

(** *** The run of [encode_array] *)

(** No step raises: the assignment fills [rank] with the inverse of the
    permutation [index], and the two fancy reads stay in range. *)
Lemma encode_array_run (uninit : nat → nat) (x : list A) :
  ∃ (rank codes : list nat) (uniques : list A),
    encode_array le uninit x = Ok (codes, uniques) ∧
    (∀ j p, np_argsort (np_unique le x).1.2 !! j = Some p →
            rank !! p = Some j) ∧
    Forall2 (λ i c, rank !! i = Some c) (np_unique le x).2 codes ∧
    Forall2 (λ p v, (np_unique le x).1.1 !! p = Some v)
            (np_argsort (np_unique le x).1.2) uniques.
Proof.
  pose proof (np_unique_names_elem_of x) as Hnames.
  unfold encode_array, np_unique in *. cbn [fst snd] in *.
  set (names := merge_sort le (remove_dups x)) in *.
  set (index0 := (λ v, first_index v x) <$> names).
  set (perm := np_argsort index0).
  assert (length perm = length names) as Hlen.
  { unfold perm, index0. by rewrite np_argsort_length, length_fmap. }
  destruct (setitem_inverse (np_empty_like uninit perm) perm)
    as (rank & Hset & Hl & Hw).
  { unfold perm at 1. rewrite np_argsort_perm. by rewrite <-np_argsort_length. }
  { unfold np_empty_like. by rewrite length_fmap, length_seq. }
  rewrite Hset. simpl.
  destruct (getitem_Ok rank ((λ v, first_index v names) <$> x))
    as (codes & -> & Hc).
  { intros i (v & -> & Hv)%list_elem_of_fmap. rewrite Hl, Hlen.
    apply first_index_lt. by apply Hnames. }
  destruct (getitem_Ok names perm) as (uniques & -> & Hu).
  { intros q Hq. unfold perm in Hq. apply np_argsort_elem_of in Hq.
    unfold index0 in Hq. by rewrite length_fmap in Hq. }
  simpl. by exists rank, codes, uniques.
Qed.

Lemma encode_array_spec (uninit : nat → nat) (x : list A) :
  ∃ (codes : list nat) (uniques : list A),
    encode_array le uninit x = Ok (codes, uniques) ∧
    length uniques = length (remove_dups x) ∧
    encodes x codes uniques.
Proof.
  destruct (encode_array_run uninit x) as (rank & codes & uniques & Hrun & Hw & Hc & Hu).
  pose proof (np_unique_names_elem_of x) as Hnames.
  pose proof (np_unique_names_NoDup x) as Hnd.
  pose proof (np_unique_names x) as Hperm.
  unfold np_unique in *. cbn [fst snd] in *.
  set (names := merge_sort le (remove_dups x)) in *.
  set (index0 := (λ v, first_index v x) <$> names) in *.
  set (perm := np_argsort index0) in *.
  assert (∀ j v, uniques !! j = Some v →
            ∃ p, perm !! j = Some p ∧ names !! p = Some v) as Huniq.
  { intros j v Hj.
    destruct (Forall2_lookup_r _ _ _ _ _ Hu Hj) as (p & Hp & Hv). eauto. }
  exists codes, uniques. unfold encodes. split_and!.
  - done.
  - rewrite <-(Forall2_length _ _ _ Hu). unfold perm, index0.
    by rewrite np_argsort_length, length_fmap, Hperm.
  - by rewrite <-(Forall2_length _ _ _ Hc), length_fmap.
  - intros i v Hi.
    assert (v ∈ names) as Hv by (apply Hnames; by eapply list_elem_of_lookup_2).
    pose proof (first_index_lookup v names Hv) as Hp.
    assert (first_index v names ∈ perm) as [j Hj]%list_elem_of_lookup.
    { apply np_argsort_elem_of. unfold index0. rewrite length_fmap.
      by apply first_index_lt. }
    exists j. split.
    + assert (((λ v, first_index v names) <$> x) !! i
              = Some (first_index v names)) as Hinv.
      { by rewrite list_lookup_fmap, Hi. }
      destruct (Forall2_lookup_l _ _ _ _ _ Hc Hinv) as (c & Hci & Hr).
      rewrite (Hw j _ Hj) in Hr. by simplify_eq.
    + destruct (Forall2_lookup_l _ _ _ _ _ Hu Hj) as (u & Huj & Hn).
      rewrite Hp in Hn. by simplify_eq.
  - intros j k a b Hjk Hj Hk.
    destruct (Huniq j a Hj) as (p & Hpj & Hpa).
    destruct (Huniq k b Hk) as (q & Hqk & Hqb).
    assert (first_index a x ≤ first_index b x) as Hle.
    { apply (np_argsort_sorted index0 j k p q); [done..| |];
        unfold index0; rewrite list_lookup_fmap; [by rewrite Hpa|by rewrite Hqb]. }
    destruct (decide (first_index a x = first_index b x)) as [E|]; [|lia].
    apply first_index_inj in E;
      [|apply Hnames; by eapply list_elem_of_lookup_2..].
    subst b. assert (p = q) as -> by (by eapply NoDup_lookup).
    assert (j = k); [|lia].
    eapply NoDup_lookup; [apply (np_argsort_NoDup index0)|done..].
  - intros v [j Hj]%list_elem_of_lookup.
    destruct (Huniq j v Hj) as (p & _ & Hp).
    apply Hnames. by eapply list_elem_of_lookup_2.
Qed.

Lemma encode_array_uninit (u1 u2 : nat → nat) (x : list A) :
  encode_array le u1 x = encode_array le u2 x.
Proof.
  unfold encode_array. destruct (np_unique le x) as [[names index0] inverse].
  set (perm := np_argsort index0).
  rewrite (setitem_inverse_unique (np_empty_like u1 perm) (np_empty_like u2 perm));
    [done| |unfold np_empty_like; by rewrite length_fmap, length_seq..].
  unfold perm at 1. rewrite np_argsort_perm. by rewrite <-np_argsort_length.
Qed.

(** *** The result is determined by the input *)

Lemma StronglySorted_of_lookup {B} (R : relation B) (l : list B) :
  (∀ j k a b, j < k → l !! j = Some a → l !! k = Some b → R a b) →
  StronglySorted R l.
Proof.
  induction l as [|y l IH]; intros Hl; constructor.
  - apply IH. intros j k a b Hjk Hj Hk. apply (Hl (S j) (S k)); [lia|done..].
  - apply Forall_forall. intros b [k Hk]%list_elem_of_lookup.
    apply (Hl 0 (S k)); [lia|done..].
Qed.

Lemma NoDup_of_first_index (x uniques : list A) :
  (∀ j k a b, j < k → uniques !! j = Some a → uniques !! k = Some b →
              first_index a x < first_index b x) →
  NoDup uniques.
Proof.
  intros Hord. apply NoDup_alt. intros j k v Hj Hk.
  destruct (Nat.lt_trichotomy j k) as [Hlt|[->|Hlt]]; [|done|].
  - specialize (Hord j k v v Hlt Hj Hk). lia.
  - specialize (Hord k j v v Hlt Hk Hj). lia.
Qed.

(** Two results that decode [x] and list its values by first occurrence
    are the same result. *)
Lemma encoding_unique (x : list A) (codes1 codes2 : list nat)
    (uniques1 uniques2 : list A) :
  encodes x codes1 uniques1 → encodes x codes2 uniques2 →
  (codes1, uniques1) = (codes2, uniques2).
Proof.
  intros (Hl1 & Hd1 & Ho1 & Hi1) (Hl2 & Hd2 & Ho2 & Hi2).
  pose proof (NoDup_of_first_index x uniques1 Ho1) as Hn1.
  pose proof (NoDup_of_first_index x uniques2 Ho2) as Hn2.
  set (R := λ a b : A, first_index a x < first_index b x).
  assert (Transitive R) by (intros a b c; unfold R; lia).
  assert (AntiSymm (=) R) by (intros a b; unfold R; lia).
  assert (uniques1 = uniques2) as <-.
  { apply (StronglySorted_unique R);
      [by apply StronglySorted_of_lookup..|].
    apply NoDup_Permutation; [done..|]. intros v. split.
    - intros [i Hi]%Hi1%list_elem_of_lookup.
      destruct (Hd2 i v Hi) as (c & _ & Hc). by eapply list_elem_of_lookup_2.
    - intros [i Hi]%Hi2%list_elem_of_lookup.
      destruct (Hd1 i v Hi) as (c & _ & Hc). by eapply list_elem_of_lookup_2. }
  f_equal. apply list_eq. intros i.
  destruct (x !! i) as [v|] eqn:Hi.
  - destruct (Hd1 i v Hi) as (c1 & -> & Hc1).
    destruct (Hd2 i v Hi) as (c2 & -> & Hc2).
    f_equal. by eapply NoDup_lookup.
  - apply lookup_ge_None in Hi. rewrite !lookup_ge_None_2; [done|lia..].
Qed.

End encode_array.

Section encode_array_claims.

Context {A : Type} `{EqDecision A} (le : relation A) `{!RelDecision le}.



(** C8: the empty sequence is encoded as no codes and no values, and the
    call does not raise. *)
Theorem encode_array_empty (uninit : nat → nat) :
  encode_array le uninit [] = Ok ([], []).
Proof. reflexivity. Qed.

End encode_array_claims.

(** C9: [encode_array(['c', 'a', 'a', 'b'])] is the codes [0, 1, 1, 2] with
    the values ['c', 'a', 'b']: 'c' is numbered first although the sorted
    values that [np.unique] returns start with 'a'. *)
Theorem encode_array_c_a_a_b (uninit : nat → nat) :
  encode_array String.le uninit ["c"; "a"; "a"; "b"] =
    Ok ([0; 1; 1; 2], ["c"; "a"; "b"]) ∧
  (np_unique String.le ["c"; "a"; "a"; "b"]).1.1 = ["a"; "b"; "c"].
Proof. split; vm_compute; reflexivity. Qed.

Example encode_array_all_equal (uninit : nat → nat) :
  encode_array Z.le uninit [7; 7; 7]%Z = Ok ([0; 0; 0], [7%Z]).
Proof. vm_compute. reflexivity. Qed.

Example encode_array_numbers (uninit : nat → nat) :
  encode_array Z.le uninit [5; 3; 5; 9; 1; 3; 0]%Z =
  Ok ([0; 1; 0; 2; 3; 1; 4], [5; 3; 9; 1; 0]%Z).
Proof. vm_compute. reflexivity. Qed.

End EncoderFacts.

(** * Further properties *)

(** ** Chunk partitioner *)

Module ChunksMore.
Import Chunks ChunksFacts.










(** X5: no number of blocks splits zero elements.  A positive number of
    blocks is refused as greater than the number of elements; any other one
    is refused with the message for the number of elements, which reads
    "must be >= 0" although the number is 0. *)
Theorem split_array_chunks_zero_elements (blocks : Z) :
  raises_kind ValueError (split_array_chunks 0 blocks) ∧
  (0 < blocks →
   split_array_chunks 0 blocks = raise ValueError (msg_blocks_gt_n 0 blocks)) ∧
  (blocks ≤ 0 →
   split_array_chunks 0 blocks =
     raise ValueError "Number of elements (0) must be >= 0").
Proof.
  unfold split_array_chunks, split_array_chunks_with, raises_kind, raise.
  split_and!; repeat case_decide; intros; try lia; by eauto.
Qed.

Lemma split_array_chunks_zero_elements_witness :
  split_array_chunks 0 2 = raise ValueError (msg_blocks_gt_n 0 2) ∧
  split_array_chunks 0 (-2) =
    raise ValueError "Number of elements (0) must be >= 0".
Proof.
  split.
  - destruct (split_array_chunks_zero_elements 2) as (_ & H & _). apply H. lia.
  - destruct (split_array_chunks_zero_elements (-2)) as (_ & _ & H).
    apply H. lia.
Defined.

End ChunksMore.

(** ** Contract validator *)

Module ValidatorMore.
Import Validator ValidatorFacts.

#[local] Set Warnings "-clear-no-such-hyp".

Lemma contains_app_l (sub s t : string) :
  contains sub s → contains sub (s +:+ t).
Proof.
  intros (pre & post & ->). exists pre, (post +:+ t).
  by rewrite !string_app_assoc.
Qed.

Section check_array_like.

Context {DType NpDtype : Type} `{Countable DType} `{Countable NpDtype}.
Variable np_dtype : DType → NpDtype.
Variable dtype_kind : NpDtype → string.
Variable str_dtype : NpDtype → string.
Variable str_dtype_set : gset NpDtype → string.
Variable str_kind_set : gset string → string.
Variable str_int_set : gset Z → string.

Abbreviation check :=
  (check_array_like np_dtype dtype_kind str_dtype
     str_dtype_set str_kind_set str_int_set).
Abbreviation d_ok := (dtype_ok np_dtype).
Abbreviation k_ok := (kind_ok dtype_kind).

Ltac by_cases :=
  unfold check_array_like, get_dtype, get_ndim, has_attrs,
    dtype_ok, kind_ok, ndim_ok, raises_kind, raised_class, raise in *;
  repeat match goal with
         | c : option (one_or_set _) |- _ => destruct c as [[?|?]|]
         | a : obj _ |- _ => destruct a as [[?|] [?|] [?|]]
         end;
  simplify_eq/=; repeat (case_decide; simplify_eq/=).

Lemma check_array_like_Ok_attrs (a : obj NpDtype) dtype kind ndim :
  check a dtype kind ndim = Ok () → has_attrs a.
Proof. by_cases; naive_solver. Qed.


(** X7: a [ValueError] means exactly that the value has the three
    attributes and the dtype and the kind asked for, and not the number of
    dimensions asked for. *)
Theorem check_array_like_ValueError_iff (a : obj NpDtype) dtype kind ndim :
  raises_kind ValueError (check a dtype kind ndim) ↔
  has_attrs a ∧ d_ok a dtype ∧ k_ok a kind ∧ ¬ ndim_ok a ndim.
Proof. by_cases; naive_solver. Qed.

(** X8: of the attribute [shape] only the presence counts: two values that
    differ in their shapes only get the same outcome. *)
Theorem check_array_like_shape_unread
    (n : option Z) (d : option NpDtype) (sh sh' : list Z) dtype kind ndim :
  check_array_like np_dtype dtype_kind str_dtype
    str_dtype_set str_kind_set str_int_set (Obj n d (Some sh)) dtype kind ndim =
  check_array_like np_dtype dtype_kind str_dtype
    str_dtype_set str_kind_set str_int_set (Obj n d (Some sh')) dtype kind ndim.
Proof. unfold check_array_like. by destruct n, d. Qed.

(** X9: without constraints the call succeeds exactly on the values that
    have the three attributes. *)
Theorem check_array_like_default (a : obj NpDtype) :
  check a None None None = Ok () ↔ has_attrs a.
Proof. by_cases; naive_solver. Qed.

(** X10: a call with several constraints succeeds exactly when the calls
    with each constraint alone succeed. *)
Theorem check_array_like_conjunctive (a : obj NpDtype) dtype kind ndim :
  check a dtype kind ndim = Ok () ↔
  check a dtype None None = Ok () ∧
  check a None kind None = Ok () ∧
  check a None None ndim = Ok ().
Proof. by_cases; naive_solver. Qed.

(** X11: one required value is treated like the set that holds it alone:
    the two calls return or raise the same class of exception (the messages
    differ). *)
Theorem check_array_like_single_as_set (a : obj NpDtype) :
  (∀ (t : DType) kind ndim,
     raised_class (check a (Some (One t)) kind ndim) =
     raised_class (check a (Some (AnyOf {[t]})) kind ndim)) ∧
  (∀ (k : string) dtype ndim,
     raised_class (check a dtype (Some (One k)) ndim) =
     raised_class (check a dtype (Some (AnyOf {[k]})) ndim)) ∧
  (∀ (z : Z) dtype kind,
     raised_class (check a dtype kind (Some (One z))) =
     raised_class (check a dtype kind (Some (AnyOf {[z]})))).
Proof. split_and!; intros; by_cases; try done; set_solver. Qed.

(** X12: a larger set of acceptable values accepts whatever a smaller one
    accepts. *)
Theorem check_array_like_set_monotone (a : obj NpDtype) :
  (∀ (s s' : gset DType) kind ndim,
     s ⊆ s' → check a (Some (AnyOf s)) kind ndim = Ok () →
     check a (Some (AnyOf s')) kind ndim = Ok ()) ∧
  (∀ (s s' : gset string) dtype ndim,
     s ⊆ s' → check a dtype (Some (AnyOf s)) ndim = Ok () →
     check a dtype (Some (AnyOf s')) ndim = Ok ()) ∧
  (∀ (s s' : gset Z) dtype kind,
     s ⊆ s' → check a dtype kind (Some (AnyOf s)) = Ok () →
     check a dtype kind (Some (AnyOf s')) = Ok ()).
Proof.
  split_and!; intros s s' c1 c2 Hsub Hok;
    pose proof (check_array_like_Ok_attrs _ _ _ _ Hok) as Hattrs;
    rewrite check_array_like_Ok_iff in Hok by done;
    destruct Hok as (Hd & Hk & Hn);
    rewrite check_array_like_Ok_iff by done; split_and!; try done.
  - destruct Hd as (d & Hobj & Hin). exists d. split; [done|]. set_solver.
  - destruct Hk as (d & Hobj & Hin). exists d. split; [done|]. set_solver.
  - destruct Hn as (z & Hobj & Hin). exists z. split; [done|]. set_solver.
Qed.

(** X13: an empty set of acceptable values accepts nothing: the call never
    returns. *)
Theorem check_array_like_empty_set (a : obj NpDtype) dtype kind ndim :
  check a (Some (AnyOf ∅)) kind ndim ≠ Ok () ∧
  check a dtype (Some (AnyOf ∅)) ndim ≠ Ok () ∧
  check a dtype kind (Some (AnyOf ∅)) ≠ Ok ().
Proof. split_and!; by_cases; try done; set_solver. Qed.

(** X14: the message of a mismatch shows the value the array has; when one
    value was required it shows that value too. *)
Theorem check_array_like_messages (a : obj NpDtype) (z : Z) (d : NpDtype) :
  obj_ndim a = Some z → obj_dtype a = Some d → is_Some (obj_shape a) →
  (∀ (t : DType) kind ndim,
     d ≠ np_dtype t →
     ∃ msg, check a (Some (One t)) kind ndim = raise TypeError msg ∧
            contains (str_dtype d) msg ∧
            contains (str_dtype (np_dtype t)) msg) ∧
  (∀ (s : gset DType) kind ndim,
     d ∉ (set_map np_dtype s : gset NpDtype) →
     ∃ msg, check a (Some (AnyOf s)) kind ndim = raise TypeError msg ∧
            contains (str_dtype d) msg) ∧
  (∀ (k : string) dtype ndim,
     d_ok a dtype → dtype_kind d ≠ k →
     ∃ msg, check a dtype (Some (One k)) ndim = raise TypeError msg ∧
            contains (dtype_kind d) msg ∧ contains k msg) ∧
  (∀ (s : gset string) dtype ndim,
     d_ok a dtype → dtype_kind d ∉ s →
     ∃ msg, check a dtype (Some (AnyOf s)) ndim = raise TypeError msg ∧
            contains (dtype_kind d) msg) ∧
  (∀ (z' : Z) dtype kind,
     d_ok a dtype → k_ok a kind → z' ≠ z →
     ∃ msg, check a dtype kind (Some (One z')) = raise ValueError msg ∧
            contains (pretty z) msg ∧ contains (pretty z') msg) ∧
  (∀ (s : gset Z) dtype kind,
     d_ok a dtype → k_ok a kind → z ∉ s →
     ∃ msg, check a dtype kind (Some (AnyOf s)) = raise ValueError msg ∧
            contains (pretty z) msg).
Proof.
  intros Hz Hd [sh Hsh].
  assert (∀ pre x post, contains x (pre +:+ x +:+ post)) as Hmid.
  { intros. apply contains_app_r, contains_app_l, contains_refl. }
  assert (∀ p1 x p2 y, contains y (p1 +:+ x +:+ p2 +:+ y)) as Hend.
  { intros. do 3 apply contains_app_r. apply contains_refl. }
  split_and!.
  - intros t kind ndim Hne.
    exists ("Array dtype (" +:+ str_dtype d +:+
            ") does not match " +:+ str_dtype (np_dtype t)).
    split_and!; [|apply Hmid|apply Hend]. by_cases; naive_solver.
  - intros s kind ndim Hne.
    exists ("Array dtype (" +:+ str_dtype d +:+
            ") does not match one of " +:+ str_dtype_set (set_map np_dtype s)).
    split; [|apply Hmid]. by_cases; naive_solver.
  - intros k dtype ndim Hdt Hne.
    exists ("Array dtype kind (" +:+ dtype_kind d +:+
            ") does not match " +:+ k).
    split_and!; [|apply Hmid|apply Hend]. by_cases; naive_solver.
  - intros s dtype ndim Hdt Hne.
    exists ("Array dtype kind (" +:+ dtype_kind d +:+
            ") does not match one of " +:+ str_kind_set s).
    split; [|apply Hmid]. by_cases; naive_solver.
  - intros z' dtype kind Hdt Hk Hne.
    exists ("Number of dimensions (" +:+ pretty z +:+
            ") does not match " +:+ pretty z').
    split_and!; [|apply Hmid|apply Hend]. by_cases; naive_solver.
  - intros s dtype kind Hdt Hk Hne.
    exists ("Number of dimensions (" +:+ pretty z +:+
            ") does not match one of " +:+ str_int_set s).
    split; [|apply Hmid]. by_cases; naive_solver.
Qed.

End check_array_like.

Lemma check_array_like_set_monotone_witness :
  Dtypes.check_array_like Dtypes.matrix_i8
    None None (Some (AnyOf {[2; 3]})) = Ok ().
Proof.
  destruct (check_array_like_set_monotone
              Dtypes.np_dtype Dtypes.dtype_kind Dtypes.str_dtype
              Dtypes.str_dtype_set Dtypes.str_kind_set Dtypes.str_int_set
              Dtypes.matrix_i8) as (_ & _ & Hn).
  apply (Hn {[2]} {[2; 3]} None None); [set_solver|].
  vm_compute. reflexivity.
Defined.

Lemma check_array_like_messages_witness :
  ∃ msg,
    Dtypes.check_array_like Dtypes.matrix_i8
      (Some (One "i8")) None (Some (One 3)) = raise ValueError msg ∧
    contains (pretty 2) msg ∧ contains (pretty 3) msg.
Proof.
  destruct (check_array_like_messages
              Dtypes.np_dtype Dtypes.dtype_kind Dtypes.str_dtype
              Dtypes.str_dtype_set Dtypes.str_kind_set Dtypes.str_int_set
              Dtypes.matrix_i8 2 "int64") as (_ & _ & _ & _ & Hn & _).
  - reflexivity.
  - reflexivity.
  - simpl. eauto.
  - apply (Hn 3 (Some (One "i8")) None); [reflexivity|exact I|lia].
Defined.

End ValidatorMore.

(** ** Stable encoder *)

Module EncoderMore.
Import Encoder EncoderFacts.

#[local] Set Warnings "-clear-no-such-hyp".

Local Open Scope nat_scope.

Section encode_array.

Context {A : Type} `{EqDecision A}.

Lemma first_index_app_l (v : A) l k :
  v ∈ l → first_index v (l ++ k) = first_index v l.
Proof.
  induction l as [|y l IH]; intros Hin; [by apply elem_of_nil in Hin|].
  simpl. case_decide; [done|]. f_equal. apply IH.
  apply elem_of_cons in Hin as [->|Hin]; done.
Qed.

Lemma first_index_app_r (v : A) l k :
  v ∉ l → first_index v (l ++ k) = length l + first_index v k.
Proof.
  induction l as [|y l IH]; intros Hin; [done|].
  simpl. apply not_elem_of_cons in Hin as [Hne Hin].
  rewrite decide_False by done. by rewrite IH.
Qed.

Lemma order_of_appearance_snoc (p : list A) v :
  order_of_appearance (p ++ [v]) =
  if decide (v ∈ order_of_appearance p) then order_of_appearance p
  else order_of_appearance p ++ [v].
Proof. unfold order_of_appearance. by rewrite foldl_snoc. Qed.

Lemma order_of_appearance_elem_of (x : list A) v :
  v ∈ order_of_appearance x ↔ v ∈ x.
Proof.
  induction x as [|w p IH] using rev_ind; [done|].
  rewrite order_of_appearance_snoc. case_decide; set_solver.
Qed.

Lemma order_of_appearance_order (x : list A) j k a b :
  j < k → order_of_appearance x !! j = Some a →
  order_of_appearance x !! k = Some b →
  first_index a x < first_index b x.
Proof.
  revert j k a b. induction x as [|w p IH] using rev_ind; intros j k a b Hjk Hj Hk.
  { change (order_of_appearance []) with (@nil A) in Hj.
    by rewrite lookup_nil in Hj. }
  rewrite order_of_appearance_snoc in Hj, Hk.
  assert (∀ i c, order_of_appearance p !! i = Some c →
                 first_index c (p ++ [w]) = first_index c p ∧
                 first_index c p < length p) as Hold.
  { intros i c Hc.
    assert (c ∈ p) by (apply order_of_appearance_elem_of;
                       by eapply list_elem_of_lookup_2).
    split; [by apply first_index_app_l|by apply first_index_lt]. }
  case_decide as Hw.
  - destruct (Hold _ _ Hj) as [-> _], (Hold _ _ Hk) as [-> _]. by eapply IH.
  - apply lookup_app_Some in Hk as [Hk|[Hlen Hk]].
    + rewrite lookup_app_l in Hj by (apply lookup_lt_Some in Hk; lia).
      destruct (Hold _ _ Hj) as [-> _], (Hold _ _ Hk) as [-> _]. by eapply IH.
    + apply list_lookup_singleton_Some in Hk as [Hk0 <-].
      rewrite lookup_app_l in Hj by lia.
      destruct (Hold _ _ Hj) as [-> Hlt].
      rewrite first_index_app_r by (by rewrite <-order_of_appearance_elem_of).
      lia.
Qed.

Lemma order_of_appearance_encodes (x : list A) :
  encodes x ((λ v, first_index v (order_of_appearance x)) <$> x)
            (order_of_appearance x).
Proof.
  split_and!.
  - by rewrite length_fmap.
  - intros i v Hi. eexists. split; [by rewrite list_lookup_fmap, Hi|].
    apply first_index_lookup, order_of_appearance_elem_of.
    by eapply list_elem_of_lookup_2.
  - apply order_of_appearance_order.
  - intros v. apply order_of_appearance_elem_of.
Qed.

Lemma order_of_appearance_app (x y : list A) :
  ∃ ext, order_of_appearance (x ++ y) = order_of_appearance x ++ ext.
Proof.
  induction y as [|w p IH] using rev_ind.
  { exists []. by rewrite !app_nil_r. }
  destruct IH as [ext IH]. rewrite app_assoc, order_of_appearance_snoc, IH.
  case_decide; [by exists ext|]. exists (ext ++ [w]). by rewrite app_assoc.
Qed.

Lemma order_of_appearance_length (x : list A) :
  length (order_of_appearance x) ≤ length x.
Proof.
  induction x as [|w p IH] using rev_ind; [done|].
  rewrite order_of_appearance_snoc, length_app. simpl.
  case_decide; [lia|]. rewrite length_app. simpl. lia.
Qed.

Context (le : relation A) `{!RelDecision le}.

(** Whatever satisfies the invariant of an encoding of [x] is what the
    call returns. *)
Lemma encode_array_eq (uninit : nat → nat) (x : list A) codes uniques :
  encodes x codes uniques → encode_array le uninit x = Ok (codes, uniques).
Proof.
  intros Henc.
  destruct (encode_array_spec le uninit x) as (codes' & uniques' & -> & _ & Henc').
  f_equal. by apply (encoding_unique x).
Qed.






(** X20: the code at position [i] is at most [i]; the first code is 0. *)
Theorem encode_array_code_bound (uninit : nat → nat) (values : list A) :
  ∃ (codes : list nat) (uniques : list A),
    encode_array le uninit values = Ok (codes, uniques) ∧
    ∀ i c, codes !! i = Some c → c ≤ i.
Proof.
  eexists _, _. split; [apply encode_array_eq, order_of_appearance_encodes|].
  intros i c Hc. apply list_lookup_fmap_Some in Hc as (v & -> & Hv).
  destruct (order_of_appearance_app (take (S i) values) (drop (S i) values))
    as [ext Hext].
  rewrite take_drop in Hext. rewrite Hext.
  assert (v ∈ order_of_appearance (take (S i) values)) as Hin.
  { apply order_of_appearance_elem_of.
    apply list_elem_of_lookup. exists i. rewrite lookup_take_lt by lia. done. }
  rewrite first_index_app_l by done.
  pose proof (first_index_lt v _ Hin).
  pose proof (order_of_appearance_length (take (S i) values)).
  rewrite length_take in *. lia.
Qed.

End encode_array.

Section encode_codes.

Context {A : Type} `{EqDecision A} (le : relation A) `{!RelDecision le}.

(** X21: the codes are their own encoding: encoding them again returns them
    unchanged, with the numbers [0, 1, ..., K-1] as the values. *)
Theorem encode_array_codes_fixed (uninit : nat → nat) (values : list A) :
  ∃ (codes : list nat) (uniques : list A),
    encode_array le uninit values = Ok (codes, uniques) ∧
    ∀ (le' : relation nat) (dec' : RelDecision le') (uninit' : nat → nat),
      encode_array le' uninit' codes = Ok (codes, seq 0 (length uniques)).
Proof.
  destruct (encode_array_spec le uninit values)
    as (codes & uniques & Hrun & _ & Hlen & Hdec & Hord & Hin).
  pose proof (NoDup_of_first_index values uniques Hord) as Hnd.
  exists codes, uniques. split; [done|]. intros le' dec' uninit'.
  apply encode_array_eq.
  assert (∀ i c, codes !! i = Some c →
                 ∃ v, values !! i = Some v ∧ uniques !! c = Some v) as Hcode.
  { intros i c Hc. destruct (lookup_lt_is_Some_2 values i) as [v Hv].
    { rewrite <-Hlen. by eapply lookup_lt_Some. }
    destruct (Hdec i v Hv) as (c0 & Hc0 & Hu). simplify_eq. eauto. }
  assert (∀ c v, uniques !! c = Some v →
                 first_index c codes = first_index v values ∧
                 codes !! first_index v values = Some c) as Hfirst.
  { intros c v Hu.
    assert (v ∈ values) as Hv by (apply Hin; by eapply list_elem_of_lookup_2).
    pose proof (first_index_lookup v values Hv) as Hv0.
    destruct (Hdec _ _ Hv0) as (c0 & Hc0 & Hu0).
    assert (c0 = c) as -> by (by eapply NoDup_lookup).
    split; [|done]. apply Nat.le_antisymm.
    - by apply first_index_least.
    - assert (c ∈ codes) as Hc by (by eapply list_elem_of_lookup_2).
      pose proof (first_index_lookup c codes Hc) as Hc1.
      destruct (Hcode _ _ Hc1) as (w & Hw & Hu1).
      assert (w = v) as -> by congruence. by apply first_index_least. }
  split_and!.
  - done.
  - intros i c Hc. exists c. split; [done|].
    apply lookup_seq. split; [done|].
    destruct (Hcode i c Hc) as (v & _ & Hu). by eapply lookup_lt_Some.
  - intros j k a b Hjk Hj Hk.
    apply lookup_seq in Hj as [-> Hj]. apply lookup_seq in Hk as [-> Hk].
    simpl. destruct (lookup_lt_is_Some_2 uniques j Hj) as [va Hva].
    destruct (lookup_lt_is_Some_2 uniques k Hk) as [vb Hvb].
    destruct (Hfirst j va Hva) as [-> _]. destruct (Hfirst k vb Hvb) as [-> _].
    exact (Hord j k va vb Hjk Hva Hvb).
  - intros c [_ Hc]%elem_of_seq.
    destruct (lookup_lt_is_Some_2 uniques c) as [v Hv]; [lia|].
    destruct (Hfirst c v Hv) as [_ Hc0]. by eapply list_elem_of_lookup_2.
Qed.

End encode_codes.

End EncoderMore.
